(** * kvstore: an append-only key-value store

    Shallow embedding of [src/kvstore.py]: the in-memory [store], the
    append-only file [DATA_FILE], [load_store] (replay), [save_set]
    (write-log-then-apply), [get_value] and the command loop of [main].

    Text is a list of Unicode code points, as a Python [str] is.  The file
    is read and written in text mode on a POSIX system: writing leaves
    ['\n'] as it is, reading uses universal newlines.  Encoding errors
    are outside the model (the file holds code points). *)

From Stdlib Require Import String Ascii.
From stdpp Require Import gmap list fin_maps.

Local Open Scope list_scope.

(** ** Text *)

Abbreviation char := N (only parsing).
Abbreviation str := (list N) (only parsing).

(** A literal of the source, character by character. *)
Definition lit (s : string) : str := map N_of_ascii (list_ascii_of_string s).

Definition LF : char := 10%N.
Definition CR : char := 13%N.
Definition SP : char := 32%N.

(** [str.isspace] on one character (CPython's [_PyUnicode_IsWhitespace]). *)
Definition isspace (c : char) : bool :=
  ((9 <=? c) && (c <=? 13) || (28 <=? c) && (c <=? 32)
   || (c =? 133) || (c =? 160) || (c =? 5760)
   || (8192 <=? c) && (c <=? 8202)
   || (c =? 8232) || (c =? 8233) || (c =? 8239) || (c =? 8287)
   || (c =? 12288))%N.

(** [s.lstrip()], [s.rstrip()] and [s.strip()] with no argument. *)
Fixpoint lstrip (s : str) : str :=
  match s with
  | c :: s' => if isspace c then lstrip s' else s
  | [] => []
  end.

Fixpoint rstrip (s : str) : str :=
  match s with
  | c :: s' =>
      match rstrip s' with
      | [] => if isspace c then [] else [c]
      | r => c :: r
      end
  | [] => []
  end.

Definition strip (s : str) : str := rstrip (lstrip s).

(** The characters up to the next whitespace, and what follows them. *)
Fixpoint break_ws (s : str) : str * str :=
  match s with
  | c :: s' =>
      if isspace c then ([], s)
      else let '(w, r) := break_ws s' in (c :: w, r)
  | [] => ([], [])
  end.

(** [s.split(None, maxsplit)] for a finite [maxsplit]: runs of whitespace
    separate the words; once [maxsplit] words are cut, the rest of the
    string, without its leading whitespace, is the last word if it is not
    empty. *)
Fixpoint split_ws (maxsplit : nat) (s : str) : list str :=
  match lstrip s with
  | [] => []
  | c :: r =>
      match maxsplit with
      | O => [c :: r]
      | S m => let '(w, rest) := break_ws (c :: r) in w :: split_ws m rest
      end
  end.

(** [s.startswith(p)]. *)
Fixpoint startswith (p s : str) : bool :=
  match p, s with
  | [], _ => true
  | a :: p', b :: s' => (a =? b)%N && startswith p' s'
  | _ :: _, [] => false
  end.

(** Iterating over a file opened with [open(path, 'r')]: the lines of the
    content, each one with its terminator, where ['\n'], ['\r'] and
    ['\r\n'] all end a line and are read as ['\n'].  [after_cr] tells that
    the previous character was a ['\r'] (a following ['\n'] belongs to the
    same terminator); [cur] is the line read so far, last character
    first. *)
Fixpoint readlines_from (after_cr : bool) (cur : str) (s : str) : list str :=
  match s with
  | [] => match cur with [] => [] | _ => [rev cur] end
  | c :: s' =>
      if (c =? LF)%N then
        if after_cr then readlines_from false [] s'
        else rev (LF :: cur) :: readlines_from false [] s'
      else if (c =? CR)%N then rev (LF :: cur) :: readlines_from true [] s'
      else readlines_from false (c :: cur) s'
  end.

Definition readlines (content : str) : list str := readlines_from false [] content.

(** ** Constants of the source *)

Definition CMD_SET : str := lit "SET".
Definition CMD_GET : str := lit "GET".
Definition CMD_EXIT : str := lit "EXIT".

(** ** The process and its environment *)

(** What the process writes on [sys.stderr]: a plain [print], or a record
    of [logging.error] (the handler adds a time stamp and the level). *)
Inductive err_item :=
  | Printed (s : str)
  | LoggedError (msg : str).

(** The file-system calls of [save_set]. *)
Inductive io_stage := StOpen | StWrite | StFlush | StFsync | StClose.

(** What happened, in program order: the calls on the data file with their
    success, and the assignments [store[key] = value]. *)
Inductive event :=
  | EvOpen (ok : bool)
  | EvWrite (data : str) (ok : bool)
  | EvFlush (ok : bool)
  | EvFsync (ok : bool)
  | EvClose (ok : bool)
  | EvStore (key value : str).

(** The environment's part in one call of [save_set]: every call succeeds
    ([None]), or one of them raises [OSError] with a message. *)
Definition fault := option (io_stage * str).

(** The environment's part in [load_store]: the file is read to its end
    ([None]), or [OSError] is raised once [n] lines were delivered
    ([n = 0] also stands for a failing [open]). *)
Definition read_fault := option (nat * str).

Record world := World {
  disk : option str;          (* DATA_FILE as a reader sees it; None: no such file *)
  durable : option str;       (* what of it has reached stable storage *)
  pending : str;              (* written to the open handle, not yet flushed *)
  store : gmap str str;       (* the global dict *)
  out : list str;             (* lines printed on sys.stdout *)
  err : list err_item;        (* sys.stderr *)
  trace : list event
}.

Definition set_disk (d : option str) (w : world) : world :=
  World d (durable w) (pending w) (store w) (out w) (err w) (trace w).
Definition set_durable (d : option str) (w : world) : world :=
  World (disk w) d (pending w) (store w) (out w) (err w) (trace w).
Definition set_pending (p : str) (w : world) : world :=
  World (disk w) (durable w) p (store w) (out w) (err w) (trace w).
Definition set_store (m : gmap str str) (w : world) : world :=
  World (disk w) (durable w) (pending w) m (out w) (err w) (trace w).
Definition emit (e : event) (w : world) : world :=
  World (disk w) (durable w) (pending w) (store w) (out w) (err w) (trace w ++ [e]).

(** [print(s)] and [print(s, file=sys.stderr)]. *)
Definition print_out (s : str) (w : world) : world :=
  World (disk w) (durable w) (pending w) (store w) (out w ++ [s]) (err w) (trace w).
Definition print_err (s : str) (w : world) : world :=
  World (disk w) (durable w) (pending w) (store w) (out w) (err w ++ [Printed s]) (trace w).

(** [logging.error(msg)]: the configured level is ERROR, so the record is
    written by the stderr handler. *)
Definition logging_error (msg : str) (w : world) : world :=
  World (disk w) (durable w) (pending w) (store w) (out w) (err w ++ [LoggedError msg]) (trace w).

(** [store[key] = value]. *)
Definition store_set (key value : str) (w : world) : world :=
  emit (EvStore key value) (set_store (<[key := value]> (store w)) w).

(** A process that starts on a file system where the data file is [d]. *)
Definition boot (d : option str) : world :=
  World d d [] ∅ [] [] [].

(** ** Calls that may raise [OSError] *)

Inductive result (A : Type) :=
  | Ok (a : A)
  | Raise (e : str).
Arguments Ok {A} a.
Arguments Raise {A} e.

Definition io (A : Type) : Type := world -> result A * world.

Definition io_ret {A} (a : A) : io A := fun w => (Ok a, w).

Definition io_bind {A B} (c : io A) (k : A -> io B) : io B :=
  fun w =>
    match c w with
    | (Ok a, w1) => k a w1
    | (Raise e, w1) => (Raise e, w1)
    end.

Notation "c1 *> c2" := (io_bind c1 (fun _ => c2))
  (at level 65, right associativity).

(** Does the environment make the call [st] fail? *)
Definition fails (ft : fault) (st : io_stage) : option str :=
  match ft, st with
  | Some (StOpen, m), StOpen | Some (StWrite, m), StWrite
  | Some (StFlush, m), StFlush | Some (StFsync, m), StFsync
  | Some (StClose, m), StClose => Some m
  | _, _ => None
  end.

(** [open(DATA_FILE, 'a')]: the file is created when it is missing; the
    new handle has nothing pending. *)
Definition open_append (ft : fault) : io unit := fun w =>
  match fails ft StOpen with
  | Some m => (Raise m, emit (EvOpen false) w)
  | None =>
      (Ok tt, emit (EvOpen true)
                (set_pending [] (set_disk (Some (default [] (disk w))) w)))
  end.

(** [f.write(data)]: the text goes to the handle's buffer. *)
Definition f_write (ft : fault) (data : str) : io unit := fun w =>
  match fails ft StWrite with
  | Some m => (Raise m, emit (EvWrite data false) w)
  | None => (Ok tt, emit (EvWrite data true) (set_pending (pending w ++ data) w))
  end.

(** [f.flush()]: the buffer is appended to the file. *)
Definition f_flush (ft : fault) : io unit := fun w =>
  match fails ft StFlush with
  | Some m => (Raise m, emit (EvFlush false) w)
  | None =>
      (Ok tt, emit (EvFlush true)
                (set_pending [] (set_disk (Some (default [] (disk w) ++ pending w)) w)))
  end.

(** [os.fsync(f.fileno())]: the file as it is reaches stable storage. *)
Definition os_fsync (ft : fault) : io unit := fun w =>
  match fails ft StFsync with
  | Some m => (Raise m, emit (EvFsync false) w)
  | None => (Ok tt, emit (EvFsync true) (set_durable (disk w) w))
  end.

(** Leaving the [with] block normally: [f.close()] flushes what is left. *)
Definition f_close (ft : fault) : io unit := fun w =>
  match fails ft StClose with
  | Some m => (Raise m, emit (EvClose false) (set_pending [] w))
  | None =>
      (Ok tt, emit (EvClose true)
                (set_pending [] (set_disk (Some (default [] (disk w) ++ pending w)) w)))
  end.

(** [with open(DATA_FILE, 'a') as f: body].  When the body raises, the
    handle is closed and the exception goes on; what was still pending is
    lost with the handle. *)
Definition with_open_append {A} (ft : fault) (body : io A) : io A :=
  open_append ft *>
  fun w =>
    match body w with
    | (Ok a, w1) => (f_close ft *> io_ret a) w1
    | (Raise e, w1) => (Raise e, set_pending [] w1)
    end.

(** ** Persistence and loading *)

(** The body of the loop of [load_store], for one line of the file. *)
Definition replay_line (w : world) (line : str) : world :=
  let line := strip line in
  if startswith (CMD_SET ++ [SP]) line then
    let parts := split_ws 2 line in
    if length parts =? 3 then store_set (nth 1 parts []) (nth 2 parts []) w
    else w
  else w.

Definition load_store (rf : read_fault) (w : world) : world :=
  match disk w with
  | None => w
  | Some content =>
      match rf with
      | None => fold_left replay_line (readlines content) w
      | Some (n, e) =>
          logging_error (lit "Error loading data file: " ++ e)
            (fold_left replay_line (take n (readlines content)) w)
      end
  end.

(** The line [f"{CMD_SET} {key} {value}\n"]. *)
Definition record_line (key value : str) : str :=
  CMD_SET ++ [SP] ++ key ++ [SP] ++ value ++ [LF].

Definition save_set (ft : fault) (key value : str) (w : world) : world :=
  match with_open_append ft
          (f_write ft (record_line key value) *> f_flush ft *> os_fsync ft) w with
  | (Ok _, w1) => store_set key value w1
  | (Raise e, w1) => logging_error (lit "Error writing to data file: " ++ e) w1
  end.

Definition get_value (key : str) (w : world) : option str := store w !! key.

(** ** Main loop *)

(** What [input()] gives: a line (with the environment's part in the write
    it may cause), or a [KeyboardInterrupt].  The end of the list of inputs
    is the end of input ([EOFError]).  The prompt that [input] shows is
    not part of the model. *)
Inductive input_event :=
  | Line (s : str) (ft : fault)
  | Interrupt.

(** How one iteration of [while True] ends. *)
Inductive outcome :=
  | Continue (w : world)
  | Break (w : world)
  | Uncaught (exn : string) (w : world).

Definition invalid_command : str := lit "Invalid command. Use SET, GET, or EXIT.".

(** One iteration, once [input()] has returned [line]. *)
Definition loop_body (interactive : bool) (line : str) (ft : fault) (w : world) : outcome :=
  match line with
  | [] => Continue w
  | _ :: _ =>
      let parts := split_ws 2 (strip line) in
      if (length parts =? 2) && bool_decide (nth 0 parts [] = CMD_GET) then
        let value := get_value (nth 1 parts []) w in
        Continue (print_out (default [] value) w)
      else if (3 <=? length parts) && bool_decide (nth 0 parts [] = CMD_SET) then
        let w1 := save_set ft (nth 1 parts []) (nth 2 parts []) w in
        Continue (if interactive then print_err (lit "(OK)") w1 else w1)
      else
        match parts with
        | [] => Uncaught "IndexError" w
        | p0 :: _ =>
            if bool_decide (p0 = CMD_EXIT) then Break w
            else Continue (if interactive then print_err invalid_command w else w)
        end
  end.

(** How [main] ends: it returns, or an exception leaves it. *)
Inductive final :=
  | Returned (w : world)
  | Crashed (exn : string) (w : world).

Definition exiting : str := LF :: lit "Exiting...".

Fixpoint main_loop (interactive : bool) (inputs : list input_event) (w : world) : final :=
  match inputs with
  | [] => Returned (print_err exiting w)
  | Interrupt :: _ => Returned (print_err exiting w)
  | Line line ft :: rest =>
      match loop_body interactive line ft w with
      | Continue w1 => main_loop interactive rest w1
      | Break w1 => Returned w1
      | Uncaught exn w1 => Crashed exn w1
      end
  end.

Definition banner (w : world) : world :=
  print_err (lit "Commands: SET <key> <value>, GET <key>, EXIT")
    (print_err (lit "--- Simple Key-Value Store ---") w).

(** [main] up to the loop: replay, then the banner of an interactive
    session. *)
Definition startup (rf : read_fault) (interactive : bool) (w : world) : world :=
  let w1 := load_store rf w in
  if interactive then banner w1 else w1.

Definition main (rf : read_fault) (interactive : bool) (inputs : list input_event)
    (w : world) : final :=
  main_loop interactive inputs (startup rf interactive w).

Definition final_world (r : final) : world :=
  match r with Returned w | Crashed _ w => w end.

Definition outcome_world (o : outcome) : world :=
  match o with Continue w | Break w | Uncaught _ w => w end.

(** ** Vocabulary of the properties *)

(** A string with no whitespace at either end. *)
Definition trimmed (s : str) : Prop := lstrip s = s /\ rstrip s = s.

(** A string with no whitespace at all. *)
Definition no_space (s : str) : Prop := Forall (fun c => isspace c = false) s.

(** A string with no line terminator. *)
Definition one_line (s : str) : Prop := Forall (fun c => c <> LF /\ c <> CR) s.

(** The file ends where a line ends: it is empty, or its last character
    is a newline. *)
Definition terminated (content : str) : Prop :=
  content = [] \/ exists body : str, content = body ++ [LF].

Definition well_terminated (d : option str) : Prop :=
  match d with
  | None => True
  | Some content => terminated content
  end.

(** The record that the loop of [load_store] finds in a line, if any. *)
Definition parse_record (line : str) : option (str * str) :=
  let line := strip line in
  if startswith (CMD_SET ++ [SP]) line then
    match split_ws 2 line with
    | [_; key; value] => Some (key, value)
    | _ => None
    end
  else None.

(** A line that the loop of [load_store] finds no record in: after
    stripping, it does not start with the marker and a space, or it does
    not split into three words. *)
Definition malformed (line : str) : Prop :=
  startswith (CMD_SET ++ [SP]) (strip line) = false
  \/ length (split_ws 2 (strip line)) <> 3.

(** Replay on the mapping alone. *)
Definition apply_line (m : gmap str str) (line : str) : gmap str str :=
  match parse_record line with
  | Some (key, value) => <[key := value]> m
  | None => m
  end.

Definition replay_map (lines : list str) (m : gmap str str) : gmap str str :=
  fold_left apply_line lines m.

(** The mapping that a fresh process reads from the data file [d]. *)
Definition log_map (d : option str) : gmap str str :=
  store (load_store None (boot d)).

(** A new process on the file that [w] leaves: empty cache, then replay. *)
Definition restart (w : world) : world := load_store None (boot (disk w)).

(** The states of a process started on the data file [d], between two
    iterations of the loop (or when it has left it), when startup reads
    the whole file, every append succeeds and [input()] returns lines
    that satisfy [P]. *)
Inductive reachable (P : str -> Prop) (d : option str) (interactive : bool)
    : world -> Prop :=
  | reach_start : reachable P d interactive (startup None interactive (boot d))
  | reach_step w line :
      reachable P d interactive w -> P line ->
      reachable P d interactive (outcome_world (loop_body interactive line None w)).

(** The cache is what replay of the file gives, and the file ends where
    a line ends. *)
Definition consistent (w : world) : Prop :=
  store w = log_map (disk w) /\ well_terminated (disk w).

(** The words of an input line, as the loop cuts it. *)
Definition tokens (line : str) : list str := split_ws 2 (strip line).

(** The commands of the dispatcher: [GET key], [SET key value], [EXIT]. *)
Definition is_GET (parts : list str) : bool :=
  match parts with
  | [c; _] => bool_decide (c = CMD_GET)
  | _ => false
  end.

Definition is_SET (parts : list str) : bool :=
  match parts with
  | [c; _; _] => bool_decide (c = CMD_SET)
  | _ => false
  end.

Definition is_EXIT (parts : list str) : bool :=
  match parts with
  | c :: _ => bool_decide (c = CMD_EXIT)
  | [] => false
  end.

(** Goals on the characters of a literal. *)
Ltac solve_chars :=
  unfold one_line, no_space; apply (bool_decide_unpack _); vm_compute; reflexivity.

(** * Properties *)

(** ** The library calls on small inputs *)

Example split_keeps_value_spaces :
  split_ws 2 (strip (lit "  SET  a   b c ")) = [lit "SET"; lit "a"; lit "b c"].
Proof. reflexivity. Qed.

Example split_blank : split_ws 2 (strip (lit "   ")) = [].
Proof. reflexivity. Qed.

Example readlines_universal :
  readlines (lit "SET a x" ++ [CR] ++ lit "y" ++ [CR; LF] ++ lit "z" ++ [LF] ++ lit "last")
  = [lit "SET a x" ++ [LF]; lit "y" ++ [LF]; lit "z" ++ [LF]; lit "last"].
Proof. reflexivity. Qed.

Example isspace_table :
  filter (fun c => isspace c) (map N.of_nat (seq 0 12300))
  = [9; 10; 11; 12; 13; 28; 29; 30; 31; 32; 133; 160; 5760;
     8192; 8193; 8194; 8195; 8196; 8197; 8198; 8199; 8200; 8201; 8202;
     8232; 8233; 8239; 8287; 12288]%N.
Proof. vm_compute. reflexivity. Qed.

(** ** Text *)

Section text.

Implicit Types (s t w r : str) (c : char).

Lemma lstrip_cons_keep c s : isspace c = false -> lstrip (c :: s) = c :: s.
Proof. intros H. simpl. by rewrite H. Qed.

Lemma lstrip_cons_drop c s : isspace c = true -> lstrip (c :: s) = lstrip s.
Proof. intros H. simpl. by rewrite H. Qed.

Lemma lstrip_suffix s : exists p, s = p ++ lstrip s.
Proof.
  induction s as [|c s [p Hp]]; [by exists []|]. simpl.
  destruct (isspace c); [|by exists []].
  exists (c :: p). simpl. by f_equal.
Qed.

Lemma lstrip_head s c r : lstrip s = c :: r -> isspace c = false.
Proof.
  induction s as [|a s IH]; simpl; [done|].
  destruct (isspace a) eqn:Ha; [done|]. by intros [= <- _].
Qed.

Lemma lstrip_idemp s : lstrip (lstrip s) = lstrip s.
Proof.
  destruct (lstrip s) as [|c r] eqn:E; [done|].
  apply lstrip_cons_keep. eapply lstrip_head, E.
Qed.

Lemma rstrip_cons c s :
  rstrip (c :: s) = c :: rstrip s \/ rstrip (c :: s) = [] /\ rstrip s = [].
Proof. simpl. destruct (rstrip s); [destruct (isspace c)|]; auto. Qed.

Lemma rstrip_length s : length (rstrip s) <= length s.
Proof.
  induction s as [|c s IH]; [done|].
  destruct (rstrip_cons c s) as [-> | [-> _]]; simpl; lia.
Qed.

Lemma rstrip_app s t :
  rstrip (s ++ t) = match rstrip t with [] => rstrip s | _ => s ++ rstrip t end.
Proof.
  induction s as [|c s IH]; simpl; [by destruct (rstrip t)|].
  rewrite IH. destruct (rstrip t) as [|a r]; [done|].
  by destruct s.
Qed.

Lemma rstrip_idemp s : rstrip (rstrip s) = rstrip s.
Proof.
  induction s as [|c s IH]; [done|]. simpl.
  destruct (rstrip s) as [|a r] eqn:E.
  - destruct (isspace c) eqn:Hc; simpl; by rewrite ?Hc.
  - change (rstrip (c :: a :: r) = c :: a :: r).
    change (c :: a :: r) with ([c] ++ a :: r) at 1.
    rewrite rstrip_app, IH. done.
Qed.

(** A nonempty tail of a right-trimmed string is right-trimmed. *)
Lemma rstrip_tail s t : t <> [] -> rstrip (s ++ t) = s ++ t -> rstrip t = t.
Proof.
  intros Ht. rewrite rstrip_app.
  destruct (rstrip t) as [|a r] eqn:E.
  - intros H. pose proof (rstrip_length s) as Hl. rewrite H in Hl.
    rewrite length_app in Hl. destruct t; [done|]. simpl in Hl. lia.
  - intros H. by apply app_inv_head in H.
Qed.

Lemma strip_trimmed s : trimmed (strip s).
Proof.
  unfold trimmed, strip. split; [|apply rstrip_idemp].
  destruct (lstrip s) as [|c r] eqn:E; [done|].
  destruct (rstrip_cons c r) as [-> | [-> _]]; [|done].
  apply lstrip_cons_keep. eapply lstrip_head, E.
Qed.

Lemma trimmed_strip s : trimmed s -> strip s = s.
Proof. intros [H1 H2]. unfold strip. by rewrite H1. Qed.

Lemma break_ws_spec s :
  s = (break_ws s).1 ++ (break_ws s).2 /\ no_space (break_ws s).1.
Proof.
  induction s as [|c s [IH1 IH2]]; simpl; [by split; [|constructor]|].
  destruct (isspace c) eqn:Hc; simpl; [by split; [|constructor]|].
  destruct (break_ws s) as [w r]. simpl in *. split; [by f_equal|].
  by constructor.
Qed.

Lemma break_ws_head c s :
  isspace c = false -> exists w, (break_ws (c :: s)).1 = c :: w.
Proof. intros H. simpl. rewrite H. destruct (break_ws s). by eexists. Qed.

Lemma break_ws_word w c r :
  no_space w -> isspace c = true -> break_ws (w ++ c :: r) = (w, c :: r).
Proof.
  intros Hw Hc. induction Hw as [|a w Ha _ IH]; simpl; [by rewrite Hc|].
  by rewrite Ha, IH.
Qed.

Lemma one_line_lstrip s : one_line s -> one_line (lstrip s).
Proof.
  destruct (lstrip_suffix s) as [p Hp]. intros H.
  unfold one_line in *. rewrite Hp in H. by apply Forall_app in H as [_ ?].
Qed.

Lemma one_line_rstrip s : one_line s -> one_line (rstrip s).
Proof.
  unfold one_line. induction 1 as [|c s Hc _ IH]; [constructor|].
  destruct (rstrip_cons c s) as [-> | [-> _]]; by constructor.
Qed.

Lemma one_line_break_ws s : one_line s -> one_line (break_ws s).2.
Proof.
  destruct (break_ws_spec s) as [Hs _]. intros H.
  unfold one_line in *. rewrite Hs in H. by apply Forall_app in H as [_ ?].
Qed.

Lemma split_ws_0 s :
  split_ws 0 s = match lstrip s with [] => [] | c :: r => [c :: r] end.
Proof. done. Qed.

Lemma split_ws_S m s :
  split_ws (S m) s =
  match lstrip s with
  | [] => []
  | c :: r => (break_ws (c :: r)).1 :: split_ws m (break_ws (c :: r)).2
  end.
Proof.
  cbn [split_ws]. destruct (lstrip s) as [|c r]; [done|].
  by destruct (break_ws (c :: r)).
Qed.

(** What [split(None, 2)] gives when it gives three words. *)
Lemma split_ws_three s p0 key value :
  split_ws 2 s = [p0; key; value] ->
  key <> [] /\ no_space key /\ value <> [] /\ lstrip value = value
  /\ (exists p, s = p ++ value)
  /\ (one_line s -> one_line value).
Proof.
  rewrite split_ws_S. destruct (lstrip_suffix s) as [q0 Hq0].
  destruct (lstrip s) as [|c0 r0] eqn:E0; [done|].
  pose proof (break_ws_spec (c0 :: r0)) as [Hb0 _].
  destruct (break_ws (c0 :: r0)) as [w0 rest0]. cbn [fst snd] in *.
  rewrite split_ws_S. destruct (lstrip_suffix rest0) as [q1 Hq1].
  destruct (lstrip rest0) as [|c1 r1] eqn:E1; [done|].
  pose proof (break_ws_spec (c1 :: r1)) as [Hb1 Hn1].
  destruct (break_ws_head c1 r1 (lstrip_head _ _ _ E1)) as [w1' Hw1].
  destruct (break_ws (c1 :: r1)) as [w1 rest1]. cbn [fst snd] in *.
  rewrite split_ws_0. destruct (lstrip_suffix rest1) as [q2 Hq2].
  destruct (lstrip rest1) as [|c2 r2] eqn:E2; [done|].
  intros [= <- <- <-]. repeat split.
  - by rewrite Hw1.
  - done.
  - done.
  - rewrite <- E2. apply lstrip_idemp.
  - exists (q0 ++ w0 ++ q1 ++ w1 ++ q2).
    rewrite Hq0, Hb0, Hq1, Hb1, Hq2. by rewrite <- !app_assoc.
  - intros H. unfold one_line in *.
    rewrite Hq0, Hb0, Hq1, Hb1, Hq2 in H.
    repeat (apply Forall_app in H as [_ H]). done.
Qed.

(** The words of a record line as [save_set] writes it. *)
Lemma split_ws_record key value :
  key <> [] -> no_space key -> value <> [] -> lstrip value = value ->
  split_ws 2 (CMD_SET ++ [SP] ++ key ++ [SP] ++ value) = [CMD_SET; key; value].
Proof.
  intros Hk Hn Hv Hl.
  destruct key as [|k0 key']; [done|]. destruct value as [|v0 value']; [done|].
  pose proof (Forall_inv Hn) as Hk0. simpl in Hk0.
  pose proof (lstrip_head _ _ _ Hl) as Hv0.
  change (CMD_SET ++ [SP] ++ (k0 :: key') ++ [SP] ++ v0 :: value')
    with (83 :: 69 :: 84 :: SP :: (k0 :: key') ++ SP :: v0 :: value')%N.
  cbn [split_ws lstrip isspace]. simpl (isspace 83). cbv iota.
  change (break_ws (83 :: 69 :: 84 :: SP :: (k0 :: key') ++ SP :: v0 :: value')%N)
    with ([83; 69; 84]%N, SP :: (k0 :: key') ++ SP :: v0 :: value').
  cbv iota beta. f_equal.
  rewrite lstrip_cons_drop by done. simpl app. rewrite lstrip_cons_keep by done.
  change (k0 :: key' ++ SP :: v0 :: value') with ((k0 :: key') ++ SP :: v0 :: value').
  rewrite break_ws_word by done. f_equal.
  rewrite lstrip_cons_drop by done. by rewrite Hl.
Qed.

(** Stripping a record line gives back what was formatted. *)
Lemma strip_record key value :
  value <> [] -> rstrip value = value ->
  strip (record_line key value) = CMD_SET ++ [SP] ++ key ++ [SP] ++ value.
Proof.
  intros Hv Hr. unfold strip, record_line.
  change (lstrip (CMD_SET ++ [SP] ++ key ++ [SP] ++ value ++ [LF]))
    with (CMD_SET ++ [SP] ++ key ++ [SP] ++ value ++ [LF]).
  assert (rstrip (value ++ [LF]) = value) as Hvl.
  { rewrite rstrip_app. simpl. by rewrite Hr. }
  replace (CMD_SET ++ [SP] ++ key ++ [SP] ++ value ++ [LF])
    with ((CMD_SET ++ [SP] ++ key ++ [SP]) ++ (value ++ [LF]))
    by (by rewrite <- !app_assoc).
  rewrite rstrip_app, Hvl. destruct value; [done|]. by rewrite <- !app_assoc.
Qed.

(** Lines of a file: what follows a newline is read on its own. *)
Lemma readlines_from_app s t after_cr cur :
  readlines_from after_cr cur (s ++ LF :: t)
  = readlines_from after_cr cur (s ++ [LF]) ++ readlines t.
Proof.
  revert after_cr cur. induction s as [|c s IH]; intros after_cr cur; simpl.
  - by destruct after_cr.
  - destruct (c =? LF)%N; [destruct after_cr; simpl; by rewrite IH|].
    destruct (c =? CR)%N; simpl; by rewrite IH.
Qed.

Lemma readlines_from_one_line s cur :
  one_line s -> readlines_from false cur (s ++ [LF]) = [rev cur ++ s ++ [LF]].
Proof.
  intros H. revert cur. induction H as [|c s [H1 H2] _ IH]; intros cur; simpl.
  - done.
  - apply N.eqb_neq in H1, H2. rewrite H1, H2, IH. simpl.
    by rewrite <- app_assoc.
Qed.


Lemma readlines_app content s :
  terminated content -> readlines (content ++ s) = readlines content ++ readlines s.
Proof.
  intros [-> | [body ->]]; [done|]. unfold readlines.
  rewrite <- app_assoc. simpl. apply readlines_from_app.
Qed.

Lemma readlines_record key value :
  one_line key -> one_line value ->
  readlines (record_line key value) = [record_line key value].
Proof.
  intros Hk Hv. unfold readlines, record_line.
  replace (CMD_SET ++ [SP] ++ key ++ [SP] ++ value ++ [LF])
    with ((CMD_SET ++ [SP] ++ key ++ [SP] ++ value) ++ [LF])
    by (by rewrite <- !app_assoc).
  rewrite readlines_from_one_line; [done|].
  unfold one_line. rewrite !Forall_app. repeat split; try done.
  - unfold CMD_SET. simpl. repeat constructor; done.
  - repeat constructor; done.
  - repeat constructor; done.
Qed.

Lemma no_space_one_line s : no_space s -> one_line s.
Proof.
  unfold no_space, one_line. intros H. eapply Forall_impl; [exact H|].
  intros c Hc. split; intros ->; done.
Qed.

Lemma terminated_app content s : terminated (content ++ s ++ [LF]).
Proof. right. exists (content ++ s). by rewrite <- app_assoc. Qed.

End text.

(** ** Replay *)

Section replay.

Implicit Types (w : world) (m : gmap str str) (line key value : str)
  (lines : list str).

Lemma replay_line_parse w line :
  replay_line w line =
  match parse_record line with
  | Some (key, value) => store_set key value w
  | None => w
  end.
Proof.
  unfold replay_line, parse_record.
  destruct (startswith _ _); [|done].
  by destruct (split_ws 2 (strip line)) as [|? [|? [|? [|? ?]]]].
Qed.

Lemma malformed_parse line : malformed line <-> parse_record line = None.
Proof.
  unfold malformed, parse_record.
  destruct (startswith _ _); [|by split; [|left]].
  destruct (split_ws 2 (strip line)) as [|? [|? [|? [|? ?]]]]; simpl;
    split; try done; try (by right); by intros [|].
Qed.

Lemma replay_line_store w line :
  store (replay_line w line) = apply_line (store w) line.
Proof.
  rewrite replay_line_parse. unfold apply_line.
  by destruct (parse_record line) as [[??]|].
Qed.

(** Replay touches the dictionary and nothing else of the process's state
    (the trace records the assignments). *)
Lemma replay_line_frame w line :
  disk (replay_line w line) = disk w /\ durable (replay_line w line) = durable w
  /\ pending (replay_line w line) = pending w
  /\ out (replay_line w line) = out w /\ err (replay_line w line) = err w.
Proof. rewrite replay_line_parse. by destruct (parse_record line) as [[??]|]. Qed.

Lemma replay_lines_store lines w :
  store (fold_left replay_line lines w) = replay_map lines (store w).
Proof.
  revert w. induction lines as [|l lines IH]; intros w; [done|].
  simpl. rewrite IH. unfold replay_map. simpl. by rewrite replay_line_store.
Qed.

Lemma replay_lines_frame lines w :
  disk (fold_left replay_line lines w) = disk w
  /\ durable (fold_left replay_line lines w) = durable w
  /\ pending (fold_left replay_line lines w) = pending w
  /\ out (fold_left replay_line lines w) = out w
  /\ err (fold_left replay_line lines w) = err w.
Proof.
  revert w. induction lines as [|l lines IH]; intros w; [done|].
  simpl. destruct (IH (replay_line w l)) as (-> & -> & -> & -> & ->).
  apply replay_line_frame.
Qed.

Lemma load_store_disk rf w : disk (load_store rf w) = disk w.
Proof.
  unfold load_store. destruct (disk w) as [content|] eqn:E; [|done].
  destruct rf as [[n e]|]; simpl.
  - by destruct (replay_lines_frame (take n (readlines content)) w) as (-> & _).
  - by destruct (replay_lines_frame (readlines content) w) as (-> & _).
Qed.

Lemma load_store_store w :
  store (load_store None w) =
  match disk w with
  | Some content => replay_map (readlines content) (store w)
  | None => store w
  end.
Proof.
  unfold load_store. destruct (disk w); [|done]. apply replay_lines_store.
Qed.

Lemma log_map_unfold d :
  log_map d =
  match d with
  | Some content => replay_map (readlines content) ∅
  | None => ∅
  end.
Proof. unfold log_map. rewrite load_store_store. by destruct d. Qed.

Lemma apply_line_union m line : apply_line m line = apply_line ∅ line ∪ m.
Proof.
  unfold apply_line. destruct (parse_record line) as [[key value]|].
  - by rewrite insert_empty, insert_union_singleton_l.
  - by rewrite (left_id_L ∅ (∪)).
Qed.

(** Replay of a log over a dictionary: the log's own mapping laid over it. *)
Lemma replay_map_union lines m : replay_map lines m = replay_map lines ∅ ∪ m.
Proof.
  revert m. induction lines as [|l lines IH]; intros m; simpl.
  - by rewrite (left_id_L ∅ (∪)).
  - unfold replay_map in *. simpl. rewrite IH, (IH (apply_line ∅ l)).
    rewrite (apply_line_union m). by rewrite (assoc_L (∪)).
Qed.

Lemma replay_map_app l1 l2 m :
  replay_map (l1 ++ l2) m = replay_map l2 (replay_map l1 m).
Proof. apply fold_left_app. Qed.

(** Lines with no record for [key] leave its entry as it is. *)
Lemma replay_map_other lines m key :
  (forall l, l ∈ lines -> fst <$> parse_record l <> Some key) ->
  replay_map lines m !! key = m !! key.
Proof.
  revert m. induction lines as [|l lines IH]; intros m H; [done|].
  change (replay_map (l :: lines) m) with (replay_map lines (apply_line m l)).
  rewrite IH by (intros l' Hl'; apply H; by right).
  unfold apply_line. specialize (H l (list_elem_of_here _ _)).
  destruct (parse_record l) as [[k v]|]; [|done]. simpl in H.
  apply lookup_insert_ne. congruence.
Qed.

(** Replay never removes an entry. *)
Lemma replay_map_dom lines m key :
  is_Some (m !! key) -> is_Some (replay_map lines m !! key).
Proof.
  revert m. induction lines as [|l lines IH]; intros m H; [done|].
  change (replay_map (l :: lines) m) with (replay_map lines (apply_line m l)).
  apply IH. unfold apply_line. destruct (parse_record l) as [[k v]|]; [|done].
  rewrite lookup_insert. by case_decide.
Qed.

(** A record line is read back as the record it was formatted from. *)
Lemma parse_record_record key value :
  key <> [] -> no_space key -> value <> [] -> trimmed value ->
  parse_record (record_line key value) = Some (key, value).
Proof.
  intros Hk Hn Hv [Hl Hr]. unfold parse_record.
  rewrite strip_record by done.
  change (startswith (CMD_SET ++ [SP]) (CMD_SET ++ [SP] ++ key ++ [SP] ++ value))
    with true.
  cbv iota. by rewrite split_ws_record.
Qed.

(** Appending a record line to a file whose last line is complete adds
    that record to what replay gives. *)
Lemma log_map_append content key value :
  terminated content ->
  key <> [] -> no_space key -> value <> [] -> trimmed value -> one_line value ->
  log_map (Some (content ++ record_line key value))
  = <[key := value]> (log_map (Some content)).
Proof.
  intros Ht Hk Hn Hv Htv Hov. rewrite !log_map_unfold.
  rewrite readlines_app by done.
  rewrite readlines_record by (try done; by apply no_space_one_line).
  rewrite replay_map_app. unfold replay_map at 1. simpl.
  unfold apply_line. by rewrite parse_record_record.
Qed.

Lemma log_map_missing : log_map None = log_map (Some []).
Proof. done. Qed.

End replay.

(** ** One write *)

Section write.

Implicit Types (w : world) (key value : str) (ft : fault).

(** When every call succeeds: the line is in the file and on stable
    storage, and the dictionary has the entry. *)
Lemma save_set_ok key value w :
  save_set None key value w =
  World (Some (default [] (disk w) ++ record_line key value))
        (Some (default [] (disk w) ++ record_line key value))
        [] (<[key := value]> (store w)) (out w) (err w)
        (trace w ++ [EvOpen true; EvWrite (record_line key value) true;
                     EvFlush true; EvFsync true; EvClose true;
                     EvStore key value]).
Proof.
  unfold save_set, with_open_append, io_bind, open_append, f_write, f_flush,
    os_fsync, f_close, io_ret, store_set, emit, set_store, set_pending,
    set_disk, set_durable.
  cbn [fails disk durable pending store out err trace default from_option id app].
  rewrite !app_nil_r. by rewrite <- !app_assoc.
Qed.

(** When a call fails: the error is logged, and neither the dictionary
    nor the standard output changes; no assignment is in the trace. *)
Lemma save_set_fail st msg key value w :
  store (save_set (Some (st, msg)) key value w) = store w
  /\ out (save_set (Some (st, msg)) key value w) = out w
  /\ err (save_set (Some (st, msg)) key value w)
     = err w ++ [LoggedError (lit "Error writing to data file: " ++ msg)]
  /\ exists evs,
       trace (save_set (Some (st, msg)) key value w) = trace w ++ evs
       /\ forall k v, EvStore k v ∉ evs.
Proof.
  unfold save_set, with_open_append, io_bind, open_append, f_write, f_flush,
    os_fsync, f_close, io_ret, logging_error, emit, set_store, set_pending,
    set_disk, set_durable.
  destruct st; cbn [fails disk durable pending store out err trace];
    (repeat split; [done..|]); rewrite <- ?app_assoc;
    eexists; (split; [reflexivity|]);
    intros k v H; cbn [app] in H;
    rewrite !elem_of_cons, elem_of_nil in H; intuition discriminate.
Qed.

End write.

(** ** The loop *)

Section loop.

Implicit Types (w : world) (line key value : str) (ft : fault)
  (interactive : bool).

Lemma split_ws_length n (s : str) : length (split_ws n s) <= S n.
Proof.
  revert s. induction n as [|n IH]; intros s.
  - rewrite split_ws_0. destruct (lstrip s); cbn [length]; lia.
  - rewrite split_ws_S. destruct (lstrip s) as [|c r]; cbn [length]; [lia|].
    specialize (IH (break_ws (c :: r)).2). lia.
Qed.

Lemma commands_distinct :
  CMD_SET <> CMD_GET /\ CMD_SET <> CMD_EXIT /\ CMD_GET <> CMD_EXIT.
Proof. repeat split; intros H; vm_compute in H; discriminate. Qed.

(** The branch of [SET]: the write, then the acknowledgement of an
    interactive session. *)
Lemma loop_body_SET interactive line ft w key value :
  line <> [] -> tokens line = [CMD_SET; key; value] ->
  loop_body interactive line ft w
  = Continue (if interactive
              then print_err (lit "(OK)") (save_set ft key value w)
              else save_set ft key value w).
Proof.
  intros Hl Ht. unfold loop_body. destruct line as [|c line]; [done|].
  fold (tokens (c :: line)). rewrite Ht. cbn [length nth Nat.eqb Nat.leb].
  destruct commands_distinct as (H1 & _).
  rewrite (bool_decide_eq_false_2 _ H1), bool_decide_eq_true_2 by done.
  done.
Qed.

(** The tokens of a line on which the branch of [SET] is taken. *)
Lemma tokens_SET line :
  (3 <=? length (tokens line)) && bool_decide (nth 0 (tokens line) [] = CMD_SET) = true ->
  exists key value, tokens line = [CMD_SET; key; value].
Proof.
  intros H. apply andb_true_iff in H as [H1 H2].
  apply Nat.leb_le in H1. apply bool_decide_eq_true_1 in H2.
  pose proof (split_ws_length 2 (strip line)) as Hlen. fold (tokens line) in Hlen.
  destruct (tokens line) as [|p0 [|key [|value [|? ?]]]]; simpl in *; try lia.
  subst. by eexists _, _.
Qed.

(** What the dispatcher hands to [save_set]. *)
Lemma tokens_SET_args line p0 key value :
  tokens line = [p0; key; value] ->
  key <> [] /\ no_space key /\ value <> [] /\ trimmed value
  /\ (one_line line -> one_line value).
Proof.
  unfold tokens. intros H.
  destruct (split_ws_three _ _ _ _ H) as (Hk & Hn & Hv & Hl & [p Hp] & Ho).
  destruct (strip_trimmed line) as [_ Hr].
  repeat split; try done.
  - rewrite Hp in Hr. by apply rstrip_tail in Hr.
  - intros H1. apply Ho. by apply one_line_rstrip, one_line_lstrip.
Qed.

Lemma log_map_default d : log_map (Some (default [] d)) = log_map d.
Proof. by destruct d. Qed.

Lemma save_set_consistent key value w :
  key <> [] -> no_space key -> value <> [] -> trimmed value -> one_line value ->
  consistent w -> consistent (save_set None key value w).
Proof.
  intros Hk Hn Hv Ht Ho [Hs Hw]. rewrite save_set_ok. split; simpl.
  - rewrite log_map_append, log_map_default, Hs; try done.
    by destruct (disk w); [|left].
  - unfold record_line. right.
    exists (default [] (disk w) ++ CMD_SET ++ [SP] ++ key ++ [SP] ++ value).
    by rewrite <- !app_assoc.
Qed.

Lemma startup_consistent d interactive :
  well_terminated d -> consistent (startup None interactive (boot d)).
Proof.
  intros H. unfold consistent, startup.
  assert (consistent (load_store None (boot d))) as [H1 H2].
  { split; rewrite load_store_disk; done. }
  by destruct interactive.
Qed.

Lemma consistent_print_out (s : str) w : consistent w -> consistent (print_out s w).
Proof. intros H. exact H. Qed.

Lemma consistent_print_err (s : str) w : consistent w -> consistent (print_err s w).
Proof. intros H. exact H. Qed.

Lemma loop_body_consistent interactive line w :
  one_line line -> consistent w ->
  consistent (outcome_world (loop_body interactive line None w)).
Proof.
  intros Hl Hw. unfold loop_body. destruct line as [|c line]; [exact Hw|].
  fold (tokens (c :: line)).
  destruct (_ && bool_decide (_ = CMD_GET)).
  { cbn [outcome_world]. by apply consistent_print_out. }
  destruct (_ && bool_decide (_ = CMD_SET)) eqn:E.
  - apply tokens_SET in E as (key & value & E). rewrite E.
    cbn [nth outcome_world].
    destruct (tokens_SET_args _ _ _ _ E) as (Hk & Hn & Hv & Ht & Ho).
    pose proof (save_set_consistent key value w Hk Hn Hv Ht (Ho Hl) Hw) as H.
    destruct interactive; [by apply consistent_print_err | exact H].
  - clear E. destruct (tokens (c :: line)) as [|p0 ?]; [exact Hw|].
    destruct (bool_decide (p0 = CMD_EXIT)); [exact Hw|].
    destruct interactive; [apply consistent_print_err|]; exact Hw.
Qed.

End loop.

(** ** The cache and the log *)

Lemma reachable_consistent d interactive w :
  well_terminated d -> reachable one_line d interactive w -> consistent w.
Proof.
  intros Hd. induction 1 as [|w line _ IH Hl].
  - by apply startup_consistent.
  - by apply loop_body_consistent.
Qed.

(** C1, as the claim states it, fails.  First part: the log ends in a record
    cut short, "SET a" with no newline (a crash in the middle of a write); the
    process starts and receives "SET b 2"; the append succeeds, the cache
    holds b, and replay of the file finds no b (the file reads
    "SET aSET b 2").  Second part: a piped input line "SET a x\ry" on an
    empty store; the cache holds "x\ry" for a, replay of the file gives
    "x". *)
Lemma cache_diverges_from_log :
  (let d := Some (lit "SET a") in
   let w := outcome_world (loop_body false (lit "SET b 2") None
                             (startup None false (boot d))) in
   reachable (fun line => LF ∉ line) d false w
   /\ store w !! lit "b" = Some (lit "2")
   /\ log_map (disk w) !! lit "b" = None
   /\ store w <> log_map (disk w))
  /\
  (let line := lit "SET a x" ++ [CR] ++ lit "y" in
   let w := outcome_world (loop_body false line None
                             (startup None false (boot None))) in
   reachable (fun line => LF ∉ line) None false w
   /\ store w !! lit "a" = Some (lit "x" ++ [CR] ++ lit "y")
   /\ log_map (disk w) !! lit "a" = Some (lit "x")
   /\ store w <> log_map (disk w)).
Proof.
  split; cbv zeta.
  - assert (forall w, store w !! lit "b" = Some (lit "2") ->
                      log_map (disk w) !! lit "b" = None ->
                      store w <> log_map (disk w)) as Hne
      by (intros w H1 H2 E; rewrite E in H1; congruence).
    split; [|split; [|split; [|apply Hne]]]; try (vm_compute; reflexivity).
    apply reach_step; [apply reach_start|].
    apply (bool_decide_unpack _). vm_compute. reflexivity.
  - assert (forall w, store w !! lit "a" = Some (lit "x" ++ [CR] ++ lit "y") ->
                      log_map (disk w) !! lit "a" = Some (lit "x") ->
                      store w <> log_map (disk w)) as Hne
      by (intros w H1 H2 E; rewrite E in H1; rewrite H1 in H2; discriminate).
    split; [|split; [|split; [|apply Hne]]]; try (vm_compute; reflexivity).
    apply reach_step; [apply reach_start|].
    apply (bool_decide_unpack _). vm_compute. reflexivity.
Qed.

(** C1, amended.  When the data file at startup is missing, empty or ends
    with a newline, startup reads it whole, every append succeeds and no
    input line holds a line terminator: in every state that the process
    reaches between two commands, the cache is the mapping that replay of
    the file gives. *)
Theorem cache_equals_replayed_log d interactive w :
  well_terminated d ->
  reachable one_line d interactive w ->
  store w = log_map (disk w).
Proof. intros Hd Hw. by destruct (reachable_consistent d interactive w). Qed.

Lemma cache_equals_replayed_log_witness :
  let d := Some (lit "SET a 1" ++ [LF]) in
  let w := outcome_world (loop_body true (lit "SET b 2") None
                            (startup None true (boot d))) in
  well_terminated d /\ reachable one_line d true w
  /\ store w = log_map (disk w).
Proof.
  cbv zeta.
  assert (well_terminated (Some (lit "SET a 1" ++ [LF]))) as Hd
    by (right; by exists (lit "SET a 1")).
  assert (reachable one_line (Some (lit "SET a 1" ++ [LF])) true
            (outcome_world (loop_body true (lit "SET b 2") None
               (startup None true (boot (Some (lit "SET a 1" ++ [LF])))))))
    as Hw by (apply reach_step; [apply reach_start | solve_chars]).
  split; [exact Hd|]. split; [exact Hw|].
  exact (cache_equals_replayed_log _ _ _ Hd Hw).
Defined.

(** What [main] leaves is one of these states, up to what it printed. *)
Lemma main_loop_reachable P d interactive lines w :
  reachable P d interactive w -> Forall P lines ->
  exists w',
    reachable P d interactive w'
    /\ store (final_world (main_loop interactive (map (fun l => Line l None) lines) w))
       = store w'
    /\ disk (final_world (main_loop interactive (map (fun l => Line l None) lines) w))
       = disk w'.
Proof.
  intros Hw Hl. revert w Hw.
  induction Hl as [|line lines Hline _ IH]; intros w Hw; simpl.
  - by exists w.
  - pose proof (reach_step P d interactive w line Hw Hline) as Hstep.
    destruct (loop_body interactive line None w) as [w1|w1|e w1]; simpl in *.
    + by apply IH.
    + by exists w1.
    + by exists w1.
Qed.

(** C2, as the claim states it, fails: a key with no whitespace and a value
    that starts with a space, that is empty, or that holds a carriage
    return; an empty key; a log whose last line is not ended.  In each
    case the append succeeds and the restarted process does not find the
    value under the key. *)
Lemma append_restart_loses_value :
  no_space (lit "x") /\ no_space []
  /\ get_value (lit "x") (restart (save_set None (lit "x") (lit " hi") (boot None)))
     = Some (lit "hi")
  /\ get_value (lit "x") (restart (save_set None (lit "x") [] (boot None))) = None
  /\ get_value (lit "x")
       (restart (save_set None (lit "x") (lit "a" ++ [CR] ++ lit "b") (boot None)))
     = Some (lit "a")
  /\ get_value [] (restart (save_set None [] (lit "a b") (boot None))) = None
  /\ get_value (lit "x")
       (restart (save_set None (lit "x") (lit "1") (boot (Some (lit "SET y")))))
     = None.
Proof.
  split; [solve_chars|]. split; [solve_chars|].
  repeat split; vm_compute; reflexivity.
Qed.

(** C2, amended.  For every non-empty key with no whitespace and every
    non-empty value with no whitespace at either end and no line
    terminator inside, on a data file that is missing, empty or ends with
    a newline: after a successful append, a restarted process that
    replays the file returns exactly that value for the key.  (The value
    may hold spaces: "hello world" is read back as it is.) *)
Theorem append_then_restart_reads_back w key value :
  well_terminated (disk w) ->
  key <> [] -> no_space key ->
  value <> [] -> trimmed value -> one_line value ->
  get_value key (restart (save_set None key value w)) = Some value.
Proof.
  intros Hw Hk Hn Hv Ht Ho.
  unfold get_value, restart. rewrite save_set_ok. cbn [disk].
  assert (terminated (default [] (disk w))) as Hd.
  { destruct (disk w); [exact Hw | by left]. }
  pose proof (log_map_append _ key value Hd Hk Hn Hv Ht Ho) as E.
  unfold log_map in E. rewrite E.
  apply lookup_insert_eq.
Qed.

Lemma append_then_restart_reads_back_witness :
  well_terminated (disk (boot None))
  /\ lit "x" <> [] /\ no_space (lit "x")
  /\ lit "hello world" <> [] /\ trimmed (lit "hello world")
  /\ one_line (lit "hello world")
  /\ get_value (lit "x")
       (restart (save_set None (lit "x") (lit "hello world") (boot None)))
     = Some (lit "hello world").
Proof.
  assert (well_terminated (disk (boot None))) as H1 by exact I.
  assert (lit "x" <> []) as H2 by discriminate.
  assert (no_space (lit "x")) as H3 by solve_chars.
  assert (lit "hello world" <> []) as H4 by discriminate.
  assert (trimmed (lit "hello world")) as H5 by (split; reflexivity).
  assert (one_line (lit "hello world")) as H6 by solve_chars.
  repeat (split; [assumption|]).
  exact (append_then_restart_reads_back _ _ _ H1 H2 H3 H4 H5 H6).
Defined.

(** ** Log before apply *)

(** C3.  Whenever a call of [save_set] assigns to the dictionary, that
    assignment is the last thing the call does, it is the assignment of the
    call's own key and value, and before it the file was opened, the record
    line written, flushed, synced and the handle closed, each with success;
    the record is then on stable storage.  So no assignment happens
    without the durable append of the same call before it. *)
Theorem store_update_follows_durable_append ft key value w pre k v post :
  trace (save_set ft key value w) = trace w ++ pre ++ EvStore k v :: post ->
  ft = None /\ k = key /\ v = value /\ post = []
  /\ pre = [EvOpen true; EvWrite (record_line key value) true;
            EvFlush true; EvFsync true; EvClose true]
  /\ durable (save_set ft key value w)
     = Some (default [] (disk w) ++ record_line key value)
  /\ disk (save_set ft key value w)
     = Some (default [] (disk w) ++ record_line key value).
Proof.
  destruct ft as [[st msg]|].
  - destruct (save_set_fail st msg key value w) as (_ & _ & _ & evs & -> & Hev).
    intros H. apply app_inv_head in H. exfalso. apply (Hev k v).
    rewrite H. apply elem_of_app. right. apply list_elem_of_here.
  - rewrite save_set_ok. cbn [trace durable disk]. intros H.
    apply app_inv_head in H.
    do 6 (destruct pre as [|? pre]; [try discriminate|
           injection H as <- H]); [|by destruct pre].
    injection H as <- <- <-. done.
Qed.

Lemma store_update_follows_durable_append_witness :
  let key := lit "x" in
  let value := lit "hello world" in
  let pre := [EvOpen true; EvWrite (record_line key value) true;
              EvFlush true; EvFsync true; EvClose true] in
  trace (save_set None key value (boot None))
  = trace (boot None) ++ pre ++ EvStore key value :: []
  /\ durable (save_set None key value (boot None))
     = Some (lit "SET x hello world" ++ [LF]).
Proof.
  cbv zeta.
  assert (trace (save_set None (lit "x") (lit "hello world") (boot None))
          = trace (boot None)
            ++ [EvOpen true; EvWrite (record_line (lit "x") (lit "hello world")) true;
                EvFlush true; EvFsync true; EvClose true]
            ++ EvStore (lit "x") (lit "hello world") :: []) as H
    by (vm_compute; reflexivity).
  split; [exact H|].
  destruct (store_update_follows_durable_append _ _ _ _ _ _ _ _ H)
    as (_ & _ & _ & _ & _ & Hd & _).
  exact Hd.
Defined.

(** C4.  When a call of the append fails with an I/O error, whichever of
    open, write, flush, sync or close it is: [save_set] logs the error and
    leaves the dictionary as it was, and the loop goes on with the next
    input line (an interactive session still prints its acknowledgement
    after the logged error). *)
Theorem failed_append_leaves_cache interactive line st msg key value rest w :
  line <> [] -> tokens line = [CMD_SET; key; value] ->
  store (save_set (Some (st, msg)) key value w) = store w
  /\ err (save_set (Some (st, msg)) key value w)
     = err w ++ [LoggedError (lit "Error writing to data file: " ++ msg)]
  /\ main_loop interactive (Line line (Some (st, msg)) :: rest) w
     = main_loop interactive rest
         (if interactive
          then print_err (lit "(OK)") (save_set (Some (st, msg)) key value w)
          else save_set (Some (st, msg)) key value w).
Proof.
  intros Hl Ht.
  destruct (save_set_fail st msg key value w) as (H1 & _ & H2 & _).
  split; [exact H1|]. split; [exact H2|].
  cbn [main_loop]. by rewrite (loop_body_SET interactive line _ w key value Hl Ht).
Qed.

Lemma failed_append_leaves_cache_witness :
  let w := save_set None (lit "k") (lit "old") (boot None) in
  let ft := Some (StFsync, lit "disk full") in
  lit "SET k new" <> [] /\ tokens (lit "SET k new") = [CMD_SET; lit "k"; lit "new"]
  /\ store (save_set ft (lit "k") (lit "new") w) = store w
  /\ get_value (lit "k")
       (final_world (main_loop false [Line (lit "SET k new") ft; Line (lit "GET k") None] w))
     = Some (lit "old").
Proof.
  cbv zeta.
  assert (lit "SET k new" <> []) as H1 by discriminate.
  assert (tokens (lit "SET k new") = [CMD_SET; lit "k"; lit "new"]) as H2
    by (vm_compute; reflexivity).
  split; [exact H1|]. split; [exact H2|].
  destruct (failed_append_leaves_cache false (lit "SET k new") StFsync
              (lit "disk full") (lit "k") (lit "new") [Line (lit "GET k") None]
              (save_set None (lit "k") (lit "old") (boot None)) H1 H2)
    as (Hs & _ & Hm).
  split; [exact Hs|]. rewrite Hm. vm_compute. reflexivity.
Defined.

(** ** Replay *)

(** C5.  Replay applies the records in the order of the file: the value of
    a key after replay is the value of the last line that holds a record
    for it. *)
Theorem replay_last_write_wins w content l1 line l2 key value :
  disk w = Some content ->
  readlines content = l1 ++ line :: l2 ->
  parse_record line = Some (key, value) ->
  (forall l, l ∈ l2 -> fst <$> parse_record l <> Some key) ->
  get_value key (load_store None w) = Some value.
Proof.
  intros Hd Hr Hp Hl2. unfold get_value.
  rewrite load_store_store, Hd, Hr, replay_map_app.
  change (replay_map (line :: l2) ?m) with (replay_map l2 (apply_line m line)).
  rewrite replay_map_other by done.
  unfold apply_line. rewrite Hp. apply lookup_insert_eq.
Qed.

Lemma replay_last_write_wins_witness :
  let content := lit "SET a 1" ++ [LF] ++ lit "SET a 2" ++ [LF] in
  disk (boot (Some content)) = Some content
  /\ readlines content = [lit "SET a 1" ++ [LF]] ++ (lit "SET a 2" ++ [LF]) :: []
  /\ parse_record (lit "SET a 2" ++ [LF]) = Some (lit "a", lit "2")
  /\ get_value (lit "a") (load_store None (boot (Some content))) = Some (lit "2").
Proof.
  cbv zeta.
  split; [reflexivity|]. split; [vm_compute; reflexivity|].
  split; [vm_compute; reflexivity|].
  apply (replay_last_write_wins _ (lit "SET a 1" ++ [LF] ++ lit "SET a 2" ++ [LF])
           [lit "SET a 1" ++ [LF]] (lit "SET a 2" ++ [LF]) []).
  - reflexivity.
  - vm_compute; reflexivity.
  - vm_compute; reflexivity.
  - intros l Hl. by apply elem_of_nil in Hl.
Defined.

(** C6.  A line that, once stripped, does not start with the marker and a
    space, or does not split into three words, is skipped: replay gives
    what it gives on the other lines alone, logs nothing for it and goes
    on with the lines after it. *)
Theorem replay_skips_malformed_lines w content l1 line l2 :
  disk w = Some content ->
  readlines content = l1 ++ line :: l2 ->
  malformed line ->
  load_store None w = fold_left replay_line (l1 ++ l2) w.
Proof.
  intros Hd Hr Hm. unfold load_store. rewrite Hd, Hr, !fold_left_app.
  cbn [fold_left]. rewrite (replay_line_parse _ line).
  apply malformed_parse in Hm. by rewrite Hm.
Qed.

Lemma replay_skips_malformed_lines_witness :
  let content := lit "SET a 1" ++ [LF] ++ lit "GARBAGE" ++ [LF] ++ lit "SET b 2" ++ [LF] in
  let w := boot (Some content) in
  disk w = Some content
  /\ readlines content
     = [lit "SET a 1" ++ [LF]] ++ (lit "GARBAGE" ++ [LF]) :: [lit "SET b 2" ++ [LF]]
  /\ malformed (lit "GARBAGE" ++ [LF])
  /\ load_store None w
     = fold_left replay_line ([lit "SET a 1" ++ [LF]] ++ [lit "SET b 2" ++ [LF]]) w
  /\ store (load_store None w) = <[lit "b" := lit "2"]> (<[lit "a" := lit "1"]> ∅)
  /\ err (load_store None w) = [].
Proof.
  cbv zeta.
  assert (readlines (lit "SET a 1" ++ [LF] ++ lit "GARBAGE" ++ [LF] ++ lit "SET b 2" ++ [LF])
          = [lit "SET a 1" ++ [LF]] ++ (lit "GARBAGE" ++ [LF]) :: [lit "SET b 2" ++ [LF]])
    as Hr by (vm_compute; reflexivity).
  assert (malformed (lit "GARBAGE" ++ [LF])) as Hm by (left; vm_compute; reflexivity).
  split; [reflexivity|]. split; [exact Hr|]. split; [exact Hm|].
  rewrite (replay_skips_malformed_lines
             (boot (Some (lit "SET a 1" ++ [LF] ++ lit "GARBAGE" ++ [LF]
                          ++ lit "SET b 2" ++ [LF])))
             _ _ _ _ eq_refl Hr Hm).
  split; [reflexivity|]. split; vm_compute; reflexivity.
Defined.

(** C7.  When the data file does not exist, [load_store] returns at once:
    nothing changes and nothing is logged, so the cache of a starting
    process stays empty. *)
Theorem load_store_missing_file rf w :
  disk w = None -> load_store rf w = w.
Proof. intros H. unfold load_store. by rewrite H. Qed.

Lemma load_store_missing_file_witness :
  disk (boot None) = None
  /\ load_store None (boot None) = boot None
  /\ store (load_store None (boot None)) = ∅
  /\ err (load_store None (boot None)) = [].
Proof.
  assert (disk (boot None) = None) as H by reflexivity.
  split; [exact H|]. rewrite (load_store_missing_file None (boot None) H).
  repeat split; reflexivity.
Defined.

(** C8.  Replaying the file twice in a row leaves the cache that one replay
    leaves. *)
Theorem replay_idempotent w :
  store (load_store None (load_store None w)) = store (load_store None w).
Proof.
  rewrite (load_store_store (load_store None w)), load_store_disk.
  rewrite load_store_store. destruct (disk w) as [content|]; [|done].
  rewrite (replay_map_union _ (replay_map _ _)), (replay_map_union _ (store w)).
  by rewrite (assoc_L (∪)), (idemp_L (∪)).
Qed.

(** C10.  [load_store] never clears the dictionary: what it leaves is the
    mapping of the log laid over the dictionary it found; a key for which
    no line of the file holds a record keeps the value it had, and no
    entry is removed. *)
Theorem replay_merges_into_cache w key :
  store (load_store None w) = log_map (disk w) ∪ store w
  /\ ((forall content l, disk w = Some content -> l ∈ readlines content ->
         fst <$> parse_record l <> Some key) ->
      store (load_store None w) !! key = store w !! key)
  /\ (is_Some (store w !! key) -> is_Some (store (load_store None w) !! key)).
Proof.
  rewrite load_store_store, log_map_unfold.
  destruct (disk w) as [content|] eqn:E.
  - split; [apply replay_map_union|]. split.
    + intros H. apply replay_map_other. intros l Hl. by apply (H content).
    + apply replay_map_dom.
  - split; [by rewrite (left_id_L ∅ (∪))|]. by split.
Qed.

Lemma replay_merges_into_cache_witness :
  let w := set_disk (Some (lit "SET a 1" ++ [LF]))
             (set_store (<[lit "k" := lit "old"]> (<[lit "a" := lit "0"]> ∅))
                (boot None)) in
  store (load_store None w) !! lit "k" = Some (lit "old")
  /\ store (load_store None w) !! lit "a" = Some (lit "1").
Proof.
  cbv zeta.
  destruct (replay_merges_into_cache
              (set_disk (Some (lit "SET a 1" ++ [LF]))
                 (set_store (<[lit "k" := lit "old"]> (<[lit "a" := lit "0"]> ∅))
                    (boot None)))
              (lit "k")) as (Hu & Hk & _).
  split.
  - rewrite Hk; [vm_compute; reflexivity|].
    intros content l [= <-] Hl. vm_compute in Hl.
    apply list_elem_of_singleton in Hl. subst l. vm_compute. discriminate.
  - rewrite Hu. vm_compute. reflexivity.
Defined.

(** ** Lines that are no command *)

(** C9, as the claim states it, fails: the empty line is none of the three
    commands, and an interactive session skips it without the diagnostic
    (the loop tests [if not line: continue] first). *)
Lemma empty_line_no_diagnostic :
  is_GET (tokens []) = false /\ is_SET (tokens []) = false
  /\ is_EXIT (tokens []) = false
  /\ loop_body true [] None (boot None) = Continue (boot None)
  /\ loop_body true [] None (boot None)
     <> Continue (print_err invalid_command (boot None)).
Proof. repeat split; try reflexivity. intros H. vm_compute in H. discriminate. Qed.

(** A line of whitespace alone has no word: [parts[0]] raises. *)
Example blank_line_raises interactive ft w :
  loop_body interactive (lit "  ") ft w = Uncaught "IndexError" w.
Proof. reflexivity. Qed.

(** C9, amended.  An input line that has at least one word and is none of
    [GET key], [SET key value] and [EXIT] gets the diagnostic on the error
    stream in an interactive session and nothing otherwise; an empty line
    is skipped in silence in both.  The loop goes on, and neither the
    dictionary nor the file changes. *)
Theorem unrecognized_line_reported interactive line ft w :
  is_GET (tokens line) = false -> is_SET (tokens line) = false ->
  is_EXIT (tokens line) = false ->
  line = [] \/ tokens line <> [] ->
  loop_body interactive line ft w
  = Continue (match line with
              | [] => w
              | _ => if interactive then print_err invalid_command w else w
              end)
  /\ store (outcome_world (loop_body interactive line ft w)) = store w
  /\ disk (outcome_world (loop_body interactive line ft w)) = disk w.
Proof.
  intros Hg Hs He Hne.
  assert (loop_body interactive line ft w
          = Continue (match line with
                      | [] => w
                      | _ => if interactive then print_err invalid_command w else w
                      end)) as ->.
  { destruct line as [|c line]; [done|]. destruct Hne as [|Hne]; [done|].
    unfold loop_body. fold (tokens (c :: line)).
    pose proof (split_ws_length 2 (strip (c :: line))) as Hlen.
    fold (tokens (c :: line)) in Hlen.
    destruct (tokens (c :: line)) as [|p0 [|p1 [|p2 [|p3 ps]]]];
      cbn [length] in Hlen; [done| | | |lia];
      cbn [is_GET is_SET is_EXIT] in Hg, Hs, He;
      cbn [length nth Nat.eqb Nat.leb andb];
      rewrite ?Hg, ?Hs, ?He; reflexivity. }
  destruct line; [done|]. by destruct interactive.
Qed.

Lemma unrecognized_line_reported_witness :
  is_GET (tokens (lit "DEL x")) = false /\ is_SET (tokens (lit "DEL x")) = false
  /\ is_EXIT (tokens (lit "DEL x")) = false
  /\ (lit "DEL x" = [] \/ tokens (lit "DEL x") <> [])
  /\ loop_body true (lit "DEL x") None (boot None)
     = Continue (print_err invalid_command (boot None))
  /\ loop_body false (lit "DEL x") None (boot None) = Continue (boot None).
Proof.
  assert (is_GET (tokens (lit "DEL x")) = false) as H1 by (vm_compute; reflexivity).
  assert (is_SET (tokens (lit "DEL x")) = false) as H2 by (vm_compute; reflexivity).
  assert (is_EXIT (tokens (lit "DEL x")) = false) as H3 by (vm_compute; reflexivity).
  assert (lit "DEL x" = [] \/ tokens (lit "DEL x") <> []) as H4
    by (right; vm_compute; discriminate).
  repeat (split; [assumption|]).
  split.
  - exact (proj1 (unrecognized_line_reported true _ None (boot None) H1 H2 H3 H4)).
  - exact (proj1 (unrecognized_line_reported false _ None (boot None) H1 H2 H3 H4)).
Defined.

(** ** A session *)

(** The scenario of the specification: two writes and a read, an exit, then
    a new process that reads the same key. *)
Example session_then_restart :
  let inputs := [Line (lit "SET name alice") None; Line (lit "SET name bob") None;
                 Line (lit "GET name") None; Line (lit "EXIT") None] in
  let w := final_world (main None false inputs (boot None)) in
  out w = [lit "bob"]
  /\ out (final_world (main None false [Line (lit "GET name") None] (boot (disk w))))
     = [lit "bob"].
Proof. split; vm_compute; reflexivity. Qed.

(** A key that was never set: [get_value] gives [None], and [GET] prints an
    empty line. *)
Example get_absent :
  get_value (lit "nope") (boot None) = None
  /\ out (outcome_world (loop_body false (lit "GET nope") None (boot None))) = [[]].
Proof. split; vm_compute; reflexivity. Qed.
